(** * Swift IRGen debug-info support: location tracking, caches, argument numbering

    A shallow embedding of [lib/IRGen/IRGenDebugInfo.h]: the [IRGenDebugInfo]
    helper object that tracks the current location and lexical scope while
    LLVM IR is generated, and the [ArtificialLocation] RAII guard. *)

From stdpp Require Import gmap strings list fin_maps.

Open Scope N_scope.

(** ** LLVM values the header manipulates *)

(** [llvm::MDNode*] handles and [SILDebugScope*] pointers are addresses;
    a null pointer is [None]. *)
Definition MDNode := nat.
Definition SILDebugScope := positive.

(** [llvm::DebugLoc]: a line, a column and a scope node.  The default
    constructed value is the unknown location. *)
Module DebugLoc.
Record t := mk { Line : N; Col : N; Scope : option MDNode }.

(** [DebugLoc()] *)
Definition empty : t := mk 0 0 None.

(** [DebugLoc::get(Line, Col, Scope)]: without a scope the result is the
    unknown location. *)
Definition get (line col : N) (scope : option MDNode) : t :=
  match scope with
  | Some _ => mk line col scope
  | None => empty
  end.

(** [DL.getScope(Ctx)] *)
Definition getScope (dl : t) : option MDNode := Scope dl.
End DebugLoc.

(** [IRBuilder]: the only part of the builder the header touches is its
    current debug location; the insertion point stands for everything else. *)
Record IRBuilder := mkIRBuilder {
  CurDbgLocation : DebugLoc.t;
  InsertPt : N
}.

Definition getCurrentDebugLocation (Builder : IRBuilder) : DebugLoc.t :=
  CurDbgLocation Builder.

Definition SetCurrentDebugLocation (L : DebugLoc.t) (Builder : IRBuilder) : IRBuilder :=
  {| CurDbgLocation := L; InsertPt := InsertPt Builder |}.

(** ** Locations *)

(** [typedef struct { unsigned Line, Col; const char* Filename; } Location;] *)
Record Location := mkLocation {
  Line : N;
  Col : N;
  Filename : option string
}.

(** [typedef struct { Location LocForLinetable, Loc; } FullLocation;] *)
Record FullLocation := mkFullLocation {
  LocForLinetable : Location;
  Loc : Location
}.

(** The value assigned by [LastLoc = {}]: every member zero. *)
Definition Location_zero : Location :=
  {| Line := 0; Col := 0; Filename := None |}.

Definition FullLocation_zero : FullLocation :=
  {| LocForLinetable := Location_zero; Loc := Location_zero |}.

(** [enum IndirectionKind : bool], [ArtificialKind], [IntrinsicKind].  The
    enumerator [Declare] of the last is written [DeclareIntrinsic]. *)
Inductive IndirectionKind := DirectValue | IndirectValue.
Inductive ArtificialKind := RealValue | ArtificialValue.
Inductive IntrinsicKind := DeclareIntrinsic | Value.

Definition IndirectionKind_to_bool (k : IndirectionKind) : bool :=
  match k with DirectValue => false | IndirectValue => true end.
Definition ArtificialKind_to_bool (k : ArtificialKind) : bool :=
  match k with RealValue => false | ArtificialValue => true end.
Definition IntrinsicKind_to_bool (k : IntrinsicKind) : bool :=
  match k with DeclareIntrinsic => false | Value => true end.

(** ** Type descriptions and the metadata sink *)

#[local] Set Warnings "-register-all".

Inductive TypeKind :=
| ScalarTy | StructTy | EnumTy | TupleTy | FunctionTy | IndirectTy.

(** A type to be described: its identity (the canonical type it stands for),
    kind, size and alignment in bits, and its members, cases or parameters. *)
Inductive TypeDescriptor := mkTypeDescriptor {
  td_identity : positive;
  td_kind : TypeKind;
  td_name : string;
  SizeInBits : N;
  AlignInBits : N;
  td_children : list TypeDescriptor
}.

Definition DebugTypeInfo := TypeDescriptor.

(** A node held by the [llvm::DIBuilder]. *)
Record DINode := mkDINode {
  di_isFwdDecl : bool;
  di_kind : TypeKind;
  di_name : string;
  di_size : N;
  di_align : N;
  di_scope : option MDNode;
  di_elements : list (MDNode * N);
  di_replacedBy : option MDNode
}.

(** [llvm::DIBuilder]: the nodes created so far; a node's handle is its
    position. *)
Record DIBuilder := mkDIBuilder {
  di_nodes : list DINode
}.

(** ** SIL functions and their arguments (used by [getArgNo]) *)

Definition SILArgument := positive.

Record SILFunction := mkSILFunction {
  fn_addr : positive;
  fn_args : list SILArgument
}.

#[global] Instance SILFunction_eq_dec : EqDecision SILFunction.
Proof. solve_decision. Defined.

(** ** The emitter object *)

(** A [llvm::WeakVH]: it either still refers to a node or has been nulled. *)
Definition WeakVH := option MDNode.

Record IRGenDebugInfo := mkIRGenDebugInfo {
  DBuilder : DIBuilder;
  (* Various caches. *)
  ScopeCache : gmap SILDebugScope WeakVH;
  DIFileCache : gmap string WeakVH;
  DITypeCache : gmap positive WeakVH;
  DINameSpaceCache : gmap string WeakVH;
  Functions : gmap string WeakVH;
  (* These are used by getArgNo.  The iterator pair [LastArg], [LastEnd] is
     the range of arguments from the cursor to the end. *)
  LastFn : option SILFunction;
  LastArg : list SILArgument;
  LastArgNo : nat;
  MainFilename : string;
  (* The last location that was emitted, and its scope. *)
  LastLoc : FullLocation;
  LastScope : option SILDebugScope;
  (* Used by pushLoc. *)
  LocationStack : list (FullLocation * option SILDebugScope)
}.

Definition with_context (loc : FullLocation) (sc : option SILDebugScope)
    (stack : list (FullLocation * option SILDebugScope))
    (DI : IRGenDebugInfo) : IRGenDebugInfo :=
  {| DBuilder := DBuilder DI;
     ScopeCache := ScopeCache DI;
     DIFileCache := DIFileCache DI;
     DITypeCache := DITypeCache DI;
     DINameSpaceCache := DINameSpaceCache DI;
     Functions := Functions DI;
     LastFn := LastFn DI;
     LastArg := LastArg DI;
     LastArgNo := LastArgNo DI;
     MainFilename := MainFilename DI;
     LastLoc := loc;
     LastScope := sc;
     LocationStack := stack |}.

(** The emission context: the pair of the last location and its scope. *)
Definition context (DI : IRGenDebugInfo) : FullLocation * option SILDebugScope :=
  (LastLoc DI, LastScope DI).

(** [void clearLoc(IRBuilder &Builder)] *)
Definition clearLoc (DI : IRGenDebugInfo) (Builder : IRBuilder)
    : IRGenDebugInfo * IRBuilder :=
  (with_context FullLocation_zero None (LocationStack DI) DI,
   SetCurrentDebugLocation DebugLoc.empty Builder).

(** [void pushLoc()] *)
Definition pushLoc (DI : IRGenDebugInfo) : IRGenDebugInfo :=
  with_context FullLocation_zero None
    ((LastLoc DI, LastScope DI) :: LocationStack DI) DI.

(** [void popLoc()].  The head of the list is the back of the vector.
    The header calls [pop_back_val] without testing for emptiness; [None]
    marks a pop of an empty stack, which is outside that call's contract.
    What a build does there is the parameter of [popLoc_with] below. *)
Definition popLoc (DI : IRGenDebugInfo) : option IRGenDebugInfo :=
  match LocationStack DI with
  | [] => None
  | (loc, sc) :: rest => Some (with_context loc sc rest DI)
  end.

(** ** The [ArtificialLocation] guard *)

(** The [IRGenDebugInfo *DI] member: null, or the emitter it points to. *)
Inductive DIPtr :=
| nullDI
| ptrDI (DI : IRGenDebugInfo).

(** [ArtificialLocation(IRGenDebugInfo *DI, IRBuilder &Builder)] *)
Definition ArtificialLocation_ctor (DI : DIPtr) (Builder : IRBuilder)
    : DIPtr * IRBuilder :=
  match DI with
  | ptrDI di =>
      let di' := pushLoc di in
      let Scope := DebugLoc.getScope (getCurrentDebugLocation Builder) in
      let DL := DebugLoc.get 0 0 Scope in
      (ptrDI di', SetCurrentDebugLocation DL Builder)
  | nullDI => (nullDI, Builder)
  end.

(** [~ArtificialLocation()] *)
Definition ArtificialLocation_dtor (DI : DIPtr) : option DIPtr :=
  match DI with
  | ptrDI di => ptrDI <$> popLoc di
  | nullDI => Some nullDI
  end.

(** Sequences of guard constructions and destructions, as the driver
    produces them when [ArtificialLocation] objects are nested. *)
Inductive LocOp := PushArtificial | PopLocation.

Definition step (op : LocOp) (s : DIPtr * IRBuilder) : option (DIPtr * IRBuilder) :=
  match op with
  | PushArtificial => Some (ArtificialLocation_ctor s.1 s.2)
  | PopLocation => (λ p, (p, s.2)) <$> ArtificialLocation_dtor s.1
  end.

Fixpoint run (ops : list LocOp) (s : DIPtr * IRBuilder) : option (DIPtr * IRBuilder) :=
  match ops with
  | [] => Some s
  | op :: ops' => step op s ≫= run ops'
  end.

(** [matched d ops]: starting at nesting depth [d], no pop in [ops] lacks an
    earlier push. *)
Fixpoint matched (d : nat) (ops : list LocOp) : bool :=
  match ops with
  | [] => true
  | PushArtificial :: ops' => matched (S d) ops'
  | PopLocation :: ops' =>
      match d with
      | O => false
      | S d' => matched d' ops'
      end
  end.

(** [closes d ops]: as [matched], and the sequence ends having popped the [d]
    levels that were open at its start and everything it pushed. *)
Fixpoint closes (d : nat) (ops : list LocOp) : bool :=
  match ops with
  | [] => match d with O => true | S _ => false end
  | PushArtificial :: ops' => closes (S d) ops'
  | PopLocation :: ops' =>
      match d with
      | O => false
      | S d' => closes d' ops'
      end
  end.

Definition balanced (ops : list LocOp) : bool := closes 0 ops.

(** The deepest nesting reached by [ops] when started at depth [d]. *)
Fixpoint max_depth (d : nat) (ops : list LocOp) : nat :=
  match ops with
  | [] => d
  | PushArtificial :: ops' => Nat.max d (max_depth (S d) ops')
  | PopLocation :: ops' => Nat.max d (max_depth (Nat.pred d) ops')
  end.

(** ** Argument numbering *)

Definition with_cursor (Fn : option SILFunction) (cur : list SILArgument)
    (no : nat) (DI : IRGenDebugInfo) : IRGenDebugInfo :=
  {| DBuilder := DBuilder DI;
     ScopeCache := ScopeCache DI;
     DIFileCache := DIFileCache DI;
     DITypeCache := DITypeCache DI;
     DINameSpaceCache := DINameSpaceCache DI;
     Functions := Functions DI;
     LastFn := Fn;
     LastArg := cur;
     LastArgNo := no;
     MainFilename := MainFilename DI;
     LastLoc := LastLoc DI;
     LastScope := LastScope DI;
     LocationStack := LocationStack DI |}.

(** Advance an argument iterator until it points at [Arg], counting the
    steps; [None] when the end of the range is reached first. *)
Fixpoint scanArgs (cur : list SILArgument) (no : nat) (Arg : SILArgument)
    : option (list SILArgument * nat) :=
  match cur with
  | [] => None
  | a :: rest =>
      if decide (a = Arg) then Some (cur, no) else scanArgs rest (S no) Arg
  end.

(** Modelled from the spec: the body of [getArgNo], of which the header has
    only the declaration and the members [LastFn], [LastArg], [LastEnd] and
    [LastArgNo].  The cursor is reset whenever the function changes; the scan
    resumes at the cursor, and starts over from the first argument when the
    argument asked for lies before it.  An argument that is not one of the
    function's is a contract error: there is no result. *)
Definition getArgNo (Fn : SILFunction) (Arg : SILArgument) (DI : IRGenDebugInfo)
    : option (nat * IRGenDebugInfo) :=
  let DI1 :=
    if decide (LastFn DI = Some Fn) then DI
    else with_cursor (Some Fn) (fn_args Fn) 0%nat DI in
  match scanArgs (LastArg DI1) (LastArgNo DI1) Arg with
  | Some (cur, no) => Some (no, with_cursor (Some Fn) cur no DI1)
  | None =>
      match scanArgs (fn_args Fn) 0%nat Arg with
      | Some (cur, no) => Some (no, with_cursor (Some Fn) cur no DI1)
      | None => None
      end
  end.

(** Query the arguments [Args] of [Fn] one after the other. *)
Fixpoint getArgNos (Fn : SILFunction) (Args : list SILArgument)
    (DI : IRGenDebugInfo) : option (list nat * IRGenDebugInfo) :=
  match Args with
  | [] => Some ([], DI)
  | Arg :: Args' =>
      match getArgNo Fn Arg DI with
      | Some (no, DI1) =>
          match getArgNos Fn Args' DI1 with
          | Some (nos, DI2) => Some (no :: nos, DI2)
          | None => None
          end
      | None => None
      end
  end.

(** The cursor agrees with the function it was left in. *)
Definition cursor_ok (DI : IRGenDebugInfo) : Prop :=
  match LastFn DI with
  | Some Fn => LastArg DI = drop (LastArgNo DI) (fn_args Fn)
  | None => True
  end.

(** ** The type cache *)

Definition with_types (B : DIBuilder) (cache : gmap positive WeakVH)
    (DI : IRGenDebugInfo) : IRGenDebugInfo :=
  {| DBuilder := B;
     ScopeCache := ScopeCache DI;
     DIFileCache := DIFileCache DI;
     DITypeCache := cache;
     DINameSpaceCache := DINameSpaceCache DI;
     Functions := Functions DI;
     LastFn := LastFn DI;
     LastArg := LastArg DI;
     LastArgNo := LastArgNo DI;
     MainFilename := MainFilename DI;
     LastLoc := LastLoc DI;
     LastScope := LastScope DI;
     LocationStack := LocationStack DI |}.

(** The sink appends a node and hands out its position. *)
Definition createNode (nd : DINode) (B : DIBuilder) : MDNode * DIBuilder :=
  (length (di_nodes B), {| di_nodes := di_nodes B ++ [nd] |}).

Definition setReplacedBy (new : MDNode) (nd : DINode) : DINode :=
  {| di_isFwdDecl := di_isFwdDecl nd;
     di_kind := di_kind nd;
     di_name := di_name nd;
     di_size := di_size nd;
     di_align := di_align nd;
     di_scope := di_scope nd;
     di_elements := di_elements nd;
     di_replacedBy := Some new |}.

(** Replace a node in place: holders of [old] are redirected to [new]. *)
Definition replaceAllUsesWith (old new : MDNode) (B : DIBuilder) : DIBuilder :=
  {| di_nodes := alter (setReplacedBy new) old (di_nodes B) |}.

(** Follow a handle through the sink's redirection. *)
Definition resolve (B : DIBuilder) (n : MDNode) : MDNode :=
  match di_nodes B !! n with
  | Some nd => default n (di_replacedBy nd)
  | None => n
  end.

(** A cache hit: the identity is present, its handle has not been nulled and
    the node it leads to is still in the sink. *)
Definition lookupType (id : positive) (DI : IRGenDebugInfo) : option MDNode :=
  match DITypeCache DI !! id with
  | Some (Some h) =>
      let n := resolve (DBuilder DI) h in
      match di_nodes (DBuilder DI) !! n with
      | Some _ => Some n
      | None => None
      end
  | _ => None
  end.

Definition cacheType (id : positive) (n : MDNode) (DI : IRGenDebugInfo)
    : IRGenDebugInfo :=
  with_types (DBuilder DI) (<[id := Some n]> (DITypeCache DI)) DI.

Definition isComposite (k : TypeKind) : bool :=
  match k with
  | StructTy | EnumTy | TupleTy => true
  | ScalarTy | FunctionTy | IndirectTy => false
  end.

(** Round [off] up to a multiple of [align]. *)
Definition alignTo (off align : N) : N :=
  if align =? 0 then off else (off + align - 1) / align * align.

Definition nodeOf (fwd : bool) (DbgTy : TypeDescriptor) (Scope : option MDNode)
    (elts : list (MDNode * N)) : DINode :=
  {| di_isFwdDecl := fwd;
     di_kind := td_kind DbgTy;
     di_name := td_name DbgTy;
     di_size := SizeInBits DbgTy;
     di_align := AlignInBits DbgTy;
     di_scope := Scope;
     di_elements := elts;
     di_replacedBy := None |}.

Definition emitNode (nd : DINode) (DI : IRGenDebugInfo) : MDNode * IRGenDebugInfo :=
  let (n, B) := createNode nd (DBuilder DI) in
  (n, with_types B (DITypeCache DI) DI).

(** Build the members [cs] one after the other with [build], placing each
    at the next offset that satisfies its alignment. *)
Definition buildMembers
    (build : TypeDescriptor → option MDNode → IRGenDebugInfo → MDNode * IRGenDebugInfo)
    (Scope : option MDNode)
    : list TypeDescriptor → N → IRGenDebugInfo → list (MDNode * N) * IRGenDebugInfo :=
  fix members cs off DI :=
    match cs with
    | [] => ([], DI)
    | c :: cs' =>
        let (m, DI') := build c Scope DI in
        let o := alignTo off (AlignInBits c) in
        let (ms, DI'') := members cs' (o + SizeInBits c) DI' in
        ((m, o) :: ms, DI'')
    end.

(** Modelled from the spec: the body of [getOrCreateType], of which the
    header has only the declaration and the [DITypeCache] member.  A cache hit
    returns at once.  On a miss a composite type first registers a forward
    declaration under its identity, then builds its members in declaration
    order, creates the completed node, redirects the forward declaration to
    it and caches it; other kinds are built directly from the descriptor and
    cached. *)
Fixpoint getOrCreateType (DbgTy : TypeDescriptor) (Scope : option MDNode)
    (DI : IRGenDebugInfo) : MDNode * IRGenDebugInfo :=
  let id := td_identity DbgTy in
  match lookupType id DI with
  | Some n => (n, DI)
  | None =>
      if isComposite (td_kind DbgTy) then
        let (fwd, DI1) := emitNode (nodeOf true DbgTy Scope []) DI in
        let DI2 := cacheType id fwd DI1 in
        let (elts, DI3) :=
          buildMembers getOrCreateType Scope (td_children DbgTy) 0 DI2 in
        let (n, DI4) := emitNode (nodeOf false DbgTy Scope elts) DI3 in
        let DI5 := with_types (replaceAllUsesWith fwd n (DBuilder DI4))
                              (DITypeCache DI4) DI4 in
        (n, cacheType id n DI5)
      else
        let (n, DI1) := emitNode (nodeOf false DbgTy Scope []) DI in
        (n, cacheType id n DI1)
  end.

(** ** Declaration emitters *)

Definition LLVMValue := positive.
Definition LLVMFunction := positive.

(** [SILType]: null when default constructed. *)
Definition SILType := option positive.
Definition SILType_null : SILType := None.

Record SILModule := mkSILModule { sil_functions : list SILFunction }.

Record IRGenModule := mkIRGenModule { SILMod : SILModule }.

Record IRGenFunction := mkIRGenFunction {
  IGM : IRGenModule;
  Builder : IRBuilder
}.

(** The arguments a call of [emitVariableDeclaration] may leave out, from
    the right. *)
Inductive TrailingArgs :=
| NoTrailing
| UpToArgNo (ArgNo : N)
| UpToIndirection (ArgNo : N) (Indirection : IndirectionKind)
| UpToArtificial (ArgNo : N) (Indirection : IndirectionKind)
    (Artificial : ArtificialKind)
| UpToIntrinsic (ArgNo : N) (Indirection : IndirectionKind)
    (Artificial : ArtificialKind) (Intrinsic : IntrinsicKind).

Section Emitters.
(** The out-of-line bodies declared by the header. *)
Variable emitVariableDeclaration_body :
  IRBuilder → LLVMValue → DebugTypeInfo → string → N →
  N → IndirectionKind → ArtificialKind → IntrinsicKind →
  IRGenDebugInfo → IRGenDebugInfo * IRBuilder.

(** [void emitArtificialFunction(SILModule &SILMod, IRBuilder &Builder,
    llvm::Function *Fn, SILType SILTy = SILType())] *)
Variable emitArtificialFunction4 :
  SILModule → IRBuilder → LLVMFunction → SILType →
  IRGenDebugInfo → IRGenDebugInfo * SILModule * IRBuilder.

(** A call of [emitVariableDeclaration]: the declaration supplies
    [ArgNo = 0], [DirectValue], [RealValue] and [Declare] for the arguments
    the call leaves out. *)
Definition emitVariableDeclaration (Builder : IRBuilder) (Storage : LLVMValue)
    (Ty : DebugTypeInfo) (Name : string) (Tag : N) (rest : TrailingArgs)
    (DI : IRGenDebugInfo) : IRGenDebugInfo * IRBuilder :=
  let call := emitVariableDeclaration_body Builder Storage Ty Name Tag in
  match rest with
  | NoTrailing => call 0 DirectValue RealValue DeclareIntrinsic DI
  | UpToArgNo ArgNo => call ArgNo DirectValue RealValue DeclareIntrinsic DI
  | UpToIndirection ArgNo Ind => call ArgNo Ind RealValue DeclareIntrinsic DI
  | UpToArtificial ArgNo Ind Art => call ArgNo Ind Art DeclareIntrinsic DI
  | UpToIntrinsic ArgNo Ind Art Intr => call ArgNo Ind Art Intr DI
  end.

(** [inline void emitArtificialFunction(IRGenFunction &IGF,
    llvm::Function *Fn, SILType SILTy = SILType())]: the module and the
    builder are passed on by reference, so what the callee does to them is
    seen through [IGF]. *)
Definition emitArtificialFunction (IGF : IRGenFunction) (Fn : LLVMFunction)
    (SILTy : SILType) (DI : IRGenDebugInfo)
    : IRGenDebugInfo * IRGenFunction :=
  let '(DI', SILMod', Builder') :=
    emitArtificialFunction4 (SILMod (IGM IGF)) (Builder IGF) Fn SILTy DI in
  (DI', {| IGM := {| SILMod := SILMod' |}; Builder := Builder' |}).

(** The same call with [SILTy] left out. *)
Definition emitArtificialFunction_noTy (IGF : IRGenFunction)
    (Fn : LLVMFunction) (DI : IRGenDebugInfo) : IRGenDebugInfo * IRGenFunction :=
  emitArtificialFunction IGF Fn SILType_null DI.
End Emitters.

(** ** Accessors and guard accounting *)

(** [StringRef getMainFilename() const] *)
Definition getMainFilename (DI : IRGenDebugInfo) : string := MainFilename DI.

(** [llvm::DIBuilder &getBuilder()] *)
Definition getBuilder (DI : IRGenDebugInfo) : DIBuilder := DBuilder DI.

(** The current context on top of the saved ones. *)
Definition contexts (DI : IRGenDebugInfo)
    : list (FullLocation * option SILDebugScope) :=
  context DI :: LocationStack DI.

Fixpoint pushes (ops : list LocOp) : nat :=
  match ops with
  | [] => 0
  | PushArtificial :: ops' => S (pushes ops')
  | PopLocation :: ops' => pushes ops'
  end.

Fixpoint pops (ops : list LocOp) : nat :=
  match ops with
  | [] => 0
  | PushArtificial :: ops' => pops ops'
  | PopLocation :: ops' => S (pops ops')
  end.

(** The number of guards open after [ops], [d] being open before. *)
Fixpoint open_after (d : nat) (ops : list LocOp) : nat :=
  match ops with
  | [] => d
  | PushArtificial :: ops' => open_after (S d) ops'
  | PopLocation :: ops' => open_after (Nat.pred d) ops'
  end.

(** The builder as guards leave it: untouched as long as none is
    constructed, and from the first construction on at line 0 / column 0 of
    the scope it was in. *)
Definition builder_after (ops : list LocOp) (B : IRBuilder) : IRBuilder :=
  if decide (pushes ops = 0)%nat then B
  else SetCurrentDebugLocation
         (DebugLoc.get 0 0 (DebugLoc.getScope (getCurrentDebugLocation B))) B.

(** A block of code under a guard: [{ ArtificialLocation AL(DI, Builder);
    body }].  The guard is constructed, the body runs on the emitter and the
    builder, and the guard is destroyed on the way out. *)
Definition guarded
    (body : IRGenDebugInfo → IRBuilder → option (IRGenDebugInfo * IRBuilder))
    (DI : IRGenDebugInfo) (B : IRBuilder) : option (IRGenDebugInfo * IRBuilder) :=
  match ArtificialLocation_ctor (ptrDI DI) B with
  | (ptrDI DI1, B1) =>
      match body DI1 B1 with
      | Some (DI2, B2) =>
          match ArtificialLocation_dtor (ptrDI DI2) with
          | Some (ptrDI DI3) => Some (DI3, B2)
          | _ => None
          end
      | None => None
      end
  | (nullDI, _) => None
  end.

(** ** Popping an empty stack *)

(** [SmallVector::pop_back_val].  On a non-empty vector it removes and
    returns the back element.  On an empty one the call is outside its
    contract, and what happens is LLVM's affair and depends on the build:
    [on_empty] is [None] when the call does not return (the assertion in
    [back()] is compiled in and fails), and [Some (x, v)] when it returns [x]
    and leaves the vector as [v]. *)
Definition pop_back_val {T : Type} (on_empty : option (T * list T))
    (v : list T) : option (T * list T) :=
  match v with
  | [] => on_empty
  | x :: rest => Some (x, rest)
  end.

(** [void popLoc()] over such a build: the one unguarded call, and the
    assignment of its result to [LastLoc] and [LastScope]. *)
Definition popLoc_with
    (on_empty : option ((FullLocation * option SILDebugScope) *
                        list (FullLocation * option SILDebugScope)))
    (DI : IRGenDebugInfo) : option IRGenDebugInfo :=
  match pop_back_val on_empty (LocationStack DI) with
  | Some ((loc, sc), rest) => Some (with_context loc sc rest DI)
  | None => None
  end.

(** [~ArtificialLocation()] over such a build. *)
Definition ArtificialLocation_dtor_with
    (on_empty : option ((FullLocation * option SILDebugScope) *
                        list (FullLocation * option SILDebugScope)))
    (DI : DIPtr) : option DIPtr :=
  match DI with
  | ptrDI di => ptrDI <$> popLoc_with on_empty di
  | nullDI => Some nullDI
  end.

Definition step_with
    (on_empty : option ((FullLocation * option SILDebugScope) *
                        list (FullLocation * option SILDebugScope)))
    (op : LocOp) (s : DIPtr * IRBuilder) : option (DIPtr * IRBuilder) :=
  match op with
  | PushArtificial => Some (ArtificialLocation_ctor s.1 s.2)
  | PopLocation => (λ p, (p, s.2)) <$> ArtificialLocation_dtor_with on_empty s.1
  end.

Fixpoint run_with
    (on_empty : option ((FullLocation * option SILDebugScope) *
                        list (FullLocation * option SILDebugScope)))
    (ops : list LocOp) (s : DIPtr * IRBuilder) : option (DIPtr * IRBuilder) :=
  match ops with
  | [] => Some s
  | op :: ops' => step_with on_empty op s ≫= run_with on_empty ops'
  end.


(** ** Sample states *)

(** An emitter that has not emitted anything yet. *)
Definition DI_fresh : IRGenDebugInfo :=
  {| DBuilder := {| di_nodes := [] |};
     ScopeCache := ∅;
     DIFileCache := ∅;
     DITypeCache := ∅;
     DINameSpaceCache := ∅;
     Functions := ∅;
     LastFn := None;
     LastArg := [];
     LastArgNo := 0%nat;
     MainFilename := "main.swift";
     LastLoc := FullLocation_zero;
     LastScope := None;
     LocationStack := [] |}.

Definition Loc_12_5 : Location :=
  {| Line := 12; Col := 5; Filename := Some "main.swift"%string |}.

(** The emitter while code for line 12 is generated in scope 7. *)
Definition DI_line12 : IRGenDebugInfo :=
  with_context {| LocForLinetable := Loc_12_5; Loc := Loc_12_5 |} (Some 7%positive)
    [] DI_fresh.

(** The same emitter with one empty context saved underneath. *)
Definition DI_line12_saved : IRGenDebugInfo :=
  with_context {| LocForLinetable := Loc_12_5; Loc := Loc_12_5 |} (Some 7%positive)
    [(FullLocation_zero, None)] DI_fresh.

Definition Builder_line12 : IRBuilder :=
  {| CurDbgLocation := DebugLoc.mk 12 5 (Some 3%nat); InsertPt := 40 |}.

(** A hundred guards opened inside one another, then closed. *)
Definition ops_nested_100 : list LocOp :=
  replicate 100 PushArtificial ++ replicate 100 PopLocation.

Definition Fn_three : SILFunction :=
  {| fn_addr := 1; fn_args := [11; 12; 13]%positive |}.

Definition Fn_two : SILFunction :=
  {| fn_addr := 2; fn_args := [21; 22]%positive |}.

Definition scalarTy (id : positive) (name : string) (size align : N)
    : TypeDescriptor :=
  mkTypeDescriptor id ScalarTy name size align [].

(** [struct Three { a : Int32; b : Int8; c : Int64 }], sizes in bytes. *)
Definition Ty_Three : TypeDescriptor :=
  mkTypeDescriptor 100 StructTy "Three" 16 8
    [scalarTy 1 "Int32" 4 4; scalarTy 2 "Int8" 1 1; scalarTy 3 "Int64" 8 8].

(** A struct with a member that refers back to the struct itself. *)
Definition Ty_Node : TypeDescriptor :=
  mkTypeDescriptor 200 StructTy "Node" 128 64
    [scalarTy 3 "Int64" 64 64;
     mkTypeDescriptor 200 StructTy "Node" 128 64 []].

(** * Properties *)

(** ** The location tracker *)

(** The claim that the guard's constructor keeps the emitter's scope while
    zeroing its location, at one emitter and builder. *)
Definition ctor_keeps_scope (DI : IRGenDebugInfo) (B : IRBuilder) : Prop :=
  ∃ DI' B',
    ArtificialLocation_ctor (ptrDI DI) B = (ptrDI DI', B') ∧
    LocationStack DI' = context DI :: LocationStack DI ∧
    Line (Loc (LastLoc DI')) = 0 ∧ Col (Loc (LastLoc DI')) = 0 ∧
    LastScope DI' = LastScope DI.

Lemma pushLoc_stack DI :
  LocationStack (pushLoc DI) = context DI :: LocationStack DI.
Proof. reflexivity. Qed.

Lemma pushLoc_context DI :
  context (pushLoc DI) = (FullLocation_zero, None).
Proof. reflexivity. Qed.

Lemma popLoc_pushLoc DI :
  ∃ DI', popLoc (pushLoc DI) = Some DI' ∧
         context DI' = context DI ∧ LocationStack DI' = LocationStack DI.
Proof. eexists; split; [reflexivity | split; reflexivity]. Qed.

Lemma popLoc_Some DI loc sc rest :
  LocationStack DI = (loc, sc) :: rest →
  popLoc DI = Some (with_context loc sc rest DI).
Proof. intros E. unfold popLoc. now rewrite E. Qed.

Lemma run_app ops1 ops2 s :
  run (ops1 ++ ops2) s = run ops1 s ≫= run ops2.
Proof.
  revert s. induction ops1 as [|op ops1 IH]; intros s; simpl.
  - reflexivity.
  - destruct (step op s) as [s1|]; simpl; [apply IH | reflexivity].
Qed.

(** A guard over a real emitter never turns its pointer into null. *)
Lemma step_ptr op DI B s' :
  step op (ptrDI DI, B) = Some s' → ∃ DI' B', s' = (ptrDI DI', B').
Proof.
  destruct op; simpl.
  - intros [= <-]. eauto.
  - destruct (popLoc DI) as [DI'|]; simpl; [|discriminate].
    intros [= <-]. eauto.
Qed.

Lemma run_ptr ops DI B s' :
  run ops (ptrDI DI, B) = Some s' → ∃ DI' B', s' = (ptrDI DI', B').
Proof.
  revert DI B. induction ops as [|op ops IH]; intros DI B; simpl.
  - intros [= <-]. eauto.
  - destruct (step op (ptrDI DI, B)) as [s1|] eqn:E; simpl; [|discriminate].
    destruct (step_ptr _ _ _ _ E) as (DI1 & B1 & ->). apply IH.
Qed.

(** The saved contexts together with the current one form one stack; a
    sequence that closes [d] levels leaves that stack with its top [d]
    entries removed. *)
Lemma run_closes ops : ∀ d DI B,
  closes d ops = true →
  (d ≤ length (LocationStack DI))%nat →
  ∃ DI' B', run ops (ptrDI DI, B) = Some (ptrDI DI', B') ∧
            context DI' :: LocationStack DI' =
              drop d (context DI :: LocationStack DI).
Proof.
  induction ops as [|[|] ops IH]; intros d DI B Hc Hd; simpl in Hc.
  - destruct d; [|discriminate]. exists DI, B. split; reflexivity.
  - destruct (IH (S d) (pushLoc DI)
                (SetCurrentDebugLocation
                   (DebugLoc.get 0 0 (DebugLoc.getScope (getCurrentDebugLocation B))) B)
                Hc) as (DI' & B' & Hr & Hs).
    { rewrite pushLoc_stack. simpl. lia. }
    exists DI', B'. split; [exact Hr|].
    rewrite Hs, pushLoc_stack. reflexivity.
  - destruct d as [|d]; [discriminate|].
    destruct (LocationStack DI) as [|[loc sc] rest] eqn:E; [simpl in Hd; lia|].
    destruct (IH d (with_context loc sc rest DI) B Hc) as (DI' & B' & Hr & Hs).
    { simpl in *. lia. }
    exists DI', B'. split.
    + simpl. rewrite (popLoc_Some _ _ _ _ E). simpl. exact Hr.
    + rewrite Hs. reflexivity.
Qed.

Lemma closes_app ops1 : ∀ d e ops2,
  closes d ops1 = true → closes (d + e) (ops1 ++ ops2) = closes e ops2.
Proof.
  induction ops1 as [|[|] ops1 IH]; intros d e ops2 H; simpl in H.
  - destruct d; [reflexivity | discriminate].
  - simpl. apply (IH (S d)). exact H.
  - destruct d as [|d]; [discriminate|]. simpl. apply IH. exact H.
Qed.

Lemma guard_balanced w :
  balanced w = true → balanced (PushArtificial :: w ++ [PopLocation]) = true.
Proof.
  intros H. unfold balanced in *. simpl.
  change 1%nat with (0 + 1)%nat. rewrite (closes_app w 0 1 _ H). reflexivity.
Qed.

(** Any balanced sequence puts back the context and the stack it found. *)
Lemma run_balanced ops DI B :
  balanced ops = true →
  ∃ DI' B', run ops (ptrDI DI, B) = Some (ptrDI DI', B') ∧
            context DI' = context DI ∧
            LocationStack DI' = LocationStack DI.
Proof.
  intros H. destruct (run_closes ops 0 DI B H) as (DI' & B' & Hr & Hs);
    [lia|].
  exists DI', B'. split; [exact Hr|].
  cbn [drop] in Hs. injection Hs as Hloc Hscope Hstack.
  unfold context. now rewrite Hloc, Hscope.
Qed.

Lemma run_matched ops : ∀ d DI B,
  matched d ops = true →
  (d ≤ length (LocationStack DI))%nat →
  is_Some (run ops (ptrDI DI, B)).
Proof.
  induction ops as [|[|] ops IH]; intros d DI B Hm Hd; simpl in Hm.
  - simpl. eauto.
  - simpl. apply (IH (S d)); [exact Hm|]. rewrite pushLoc_stack. simpl. lia.
  - destruct d as [|d]; [discriminate|].
    destruct (LocationStack DI) as [|[loc sc] rest] eqn:E; [simpl in Hd; lia|].
    simpl. rewrite (popLoc_Some _ _ _ _ E). simpl.
    apply (IH d); [exact Hm|]. simpl in *. lia.
Qed.

(** With a null emitter every guard operation succeeds and changes nothing. *)
Lemma run_null ops B : run ops (nullDI, B) = Some (nullDI, B).
Proof. induction ops as [|[|] ops IH]; simpl; auto. Qed.

(** C1, as stated, fails: while line 12 is being emitted in scope 7, the
    guard's constructor saves the context and zeroes the location, but it
    resets the emitter's scope to null instead of keeping scope 7. *)
Lemma ctor_keeps_scope_fails : ¬ ctor_keeps_scope DI_line12 Builder_line12.
Proof.
  intros (DI' & B' & Hc & _ & _ & _ & Hs).
  simpl in Hc. injection Hc as <- _. simpl in Hs. discriminate Hs.
Qed.

(** C1, amended: the guard's constructor over a real emitter saves the
    current context (last location, last scope) on top of the stack and
    resets the emitter's context to the empty one: location line 0 / column 0
    without a file, scope null.  The scope survives in the builder, whose
    debug location becomes line 0 / column 0 in the scope it had before. *)
Theorem ArtificialLocation_ctor_context DI B :
  ∃ DI' B',
    ArtificialLocation_ctor (ptrDI DI) B = (ptrDI DI', B') ∧
    LocationStack DI' = context DI :: LocationStack DI ∧
    LastLoc DI' = FullLocation_zero ∧
    Line (Loc (LastLoc DI')) = 0 ∧ Col (Loc (LastLoc DI')) = 0 ∧
    LastScope DI' = None ∧
    DebugLoc.Line (getCurrentDebugLocation B') = 0 ∧
    DebugLoc.Col (getCurrentDebugLocation B') = 0 ∧
    DebugLoc.getScope (getCurrentDebugLocation B') =
      DebugLoc.getScope (getCurrentDebugLocation B) ∧
    InsertPt B' = InsertPt B.
Proof.
  eexists _, _. split; [reflexivity|].
  unfold getCurrentDebugLocation, DebugLoc.getScope, DebugLoc.get.
  destruct (DebugLoc.Scope (CurDbgLocation B)); repeat split.
Qed.

(** C2: a balanced sequence of guard constructions and destructions nested
    at most 100 deep runs to completion and leaves the emission context (last
    location, last scope) and the stack as they were before its first push;
    and the context after the final pop is the one that was in effect just
    before the push matching it. *)
Theorem balanced_restores_context ops DI B :
  balanced ops = true →
  (max_depth 0 ops ≤ 100)%nat →
  ∃ DI' B',
    run ops (ptrDI DI, B) = Some (ptrDI DI', B') ∧
    context DI' = context DI ∧
    LocationStack DI' = LocationStack DI ∧
    ∀ pre w,
      ops = pre ++ PushArtificial :: w ++ [PopLocation] →
      balanced w = true →
      ∃ DI0 B0, run pre (ptrDI DI, B) = Some (ptrDI DI0, B0) ∧
                context DI' = context DI0.
Proof.
  intros Hb _.
  destruct (run_balanced ops DI B Hb) as (DI' & B' & Hr & Hc & Hs).
  exists DI', B'. repeat split; try assumption.
  intros pre w -> Hw. rewrite run_app in Hr.
  destruct (run pre (ptrDI DI, B)) as [s0|] eqn:Hpre; [|discriminate].
  destruct (run_ptr _ _ _ _ Hpre) as (DI0 & B0 & ->).
  exists DI0, B0. split; [reflexivity|].
  cbn [mbind option_bind] in Hr.
  destruct (run_balanced _ DI0 B0 (guard_balanced w Hw))
    as (DI1 & B1 & Hr1 & Hc1 & _).
  rewrite Hr1 in Hr. now injection Hr as <- _.
Qed.

Lemma balanced_restores_context_witness :
  ∃ DI' B',
    run ops_nested_100 (ptrDI DI_line12, Builder_line12) = Some (ptrDI DI', B') ∧
    context DI' = context DI_line12.
Proof.
  destruct (balanced_restores_context ops_nested_100 DI_line12 Builder_line12)
    as (DI' & B' & Hr & Hc & _).
  - vm_compute. reflexivity.
  - vm_compute. lia.
  - exists DI', B'. split; assumption.
Defined.

Example balanced_twice :
  (λ s, context <$> (match s.1 with ptrDI DI => Some DI | nullDI => None end))
    <$> run [PushArtificial; PushArtificial; PopLocation; PopLocation;
             PushArtificial; PopLocation] (ptrDI DI_line12, Builder_line12)
  = Some (Some (context DI_line12)).
Proof. reflexivity. Qed.

Lemma popLoc_with_nonempty on_empty DI loc sc rest :
  LocationStack DI = (loc, sc) :: rest →
  popLoc_with on_empty DI = Some (with_context loc sc rest DI).
Proof. intros E. unfold popLoc_with. now rewrite E. Qed.

(** Where the assertion is compiled in, [popLoc_with] is [popLoc]. *)
Lemma popLoc_with_None DI : popLoc_with None DI = popLoc DI.
Proof.
  unfold popLoc_with, popLoc.
  destruct (LocationStack DI) as [|[loc sc] rest]; reflexivity.
Qed.

(** A sequence whose pops are all matched never asks [pop_back_val] for the
    back of an empty vector, so the build makes no difference to it. *)
Lemma run_with_matched on_empty ops : ∀ d DI B,
  matched d ops = true →
  (d ≤ length (LocationStack DI))%nat →
  run_with on_empty ops (ptrDI DI, B) = run ops (ptrDI DI, B).
Proof.
  induction ops as [|[|] ops IH]; intros d DI B Hm Hd; simpl in Hm.
  - reflexivity.
  - simpl. apply (IH (S d)); [exact Hm|]. rewrite pushLoc_stack. simpl. lia.
  - destruct d as [|d]; [discriminate|].
    destruct (LocationStack DI) as [|[loc sc] rest] eqn:E; [simpl in Hd; lia|].
    simpl. rewrite (popLoc_with_nonempty _ _ _ _ _ E), (popLoc_Some _ _ _ _ E).
    simpl. apply (IH d); [exact Hm|]. simpl in *. lia.
Qed.




(** C6: [clearLoc] makes the last location the empty location, the last
    scope null and the builder's debug location the empty debug location,
    whatever the emitter and the builder held before. *)
Theorem clearLoc_resets DI B :
  LastLoc (clearLoc DI B).1 = FullLocation_zero ∧
  LastScope (clearLoc DI B).1 = None ∧
  getCurrentDebugLocation (clearLoc DI B).2 = DebugLoc.empty.
Proof. repeat split. Qed.

(** C8: a guard built over a null emitter pointer does nothing: its
    constructor hands back the null pointer and the builder untouched, its
    destructor succeeds without popping, and so does any sequence of such
    constructions and destructions, matched or not. *)
Theorem ArtificialLocation_null B :
  ArtificialLocation_ctor nullDI B = (nullDI, B) ∧
  ArtificialLocation_dtor nullDI = Some nullDI ∧
  ∀ ops, run ops (nullDI, B) = Some (nullDI, B).
Proof. split; [reflexivity|]. split; [reflexivity|]. intros ops. apply run_null. Qed.

(** C9: [clearLoc] leaves the location stack as it was; of the emitter only
    the last location and last scope change, and of the builder only the
    debug location. *)
Theorem clearLoc_frame DI B :
  LocationStack (clearLoc DI B).1 = LocationStack DI ∧
  (clearLoc DI B).1 =
    with_context (LastLoc (clearLoc DI B).1) (LastScope (clearLoc DI B).1)
      (LocationStack DI) DI ∧
  DBuilder (clearLoc DI B).1 = DBuilder DI ∧
  ScopeCache (clearLoc DI B).1 = ScopeCache DI ∧
  DIFileCache (clearLoc DI B).1 = DIFileCache DI ∧
  DITypeCache (clearLoc DI B).1 = DITypeCache DI ∧
  DINameSpaceCache (clearLoc DI B).1 = DINameSpaceCache DI ∧
  Functions (clearLoc DI B).1 = Functions DI ∧
  LastFn (clearLoc DI B).1 = LastFn DI ∧
  LastArg (clearLoc DI B).1 = LastArg DI ∧
  LastArgNo (clearLoc DI B).1 = LastArgNo DI ∧
  MainFilename (clearLoc DI B).1 = MainFilename DI ∧
  InsertPt (clearLoc DI B).2 = InsertPt B.
Proof. repeat split. Qed.

(** ** Declaration emitters *)

Section EmitterProperties.
Variable body :
  IRBuilder → LLVMValue → DebugTypeInfo → string → N →
  N → IndirectionKind → ArtificialKind → IntrinsicKind →
  IRGenDebugInfo → IRGenDebugInfo * IRBuilder.

Variable overload4 :
  SILModule → IRBuilder → LLVMFunction → SILType →
  IRGenDebugInfo → IRGenDebugInfo * SILModule * IRBuilder.

(** C7: a call of [emitVariableDeclaration] that leaves out its trailing
    arguments is the call with [ArgNo = 0], [DirectValue], [RealValue] and
    [Declare] written out, and likewise for every shorter tail; the three
    default enumerators are the [false] values of their enums. *)
Theorem emitVariableDeclaration_defaults
    (B : IRBuilder) (Storage : LLVMValue) (Ty : DebugTypeInfo)
    (Name : string) (Tag : N) (DI : IRGenDebugInfo) :
  let call := emitVariableDeclaration body B Storage Ty Name Tag in
  call NoTrailing DI =
    call (UpToIntrinsic 0 DirectValue RealValue DeclareIntrinsic) DI ∧
  call NoTrailing DI =
    body B Storage Ty Name Tag 0 DirectValue RealValue DeclareIntrinsic DI ∧
  (∀ ArgNo,
     call (UpToArgNo ArgNo) DI =
     call (UpToIntrinsic ArgNo DirectValue RealValue DeclareIntrinsic) DI) ∧
  (∀ ArgNo Ind,
     call (UpToIndirection ArgNo Ind) DI =
     call (UpToIntrinsic ArgNo Ind RealValue DeclareIntrinsic) DI) ∧
  (∀ ArgNo Ind Art,
     call (UpToArtificial ArgNo Ind Art) DI =
     call (UpToIntrinsic ArgNo Ind Art DeclareIntrinsic) DI) ∧
  IndirectionKind_to_bool DirectValue = false ∧
  ArtificialKind_to_bool RealValue = false ∧
  IntrinsicKind_to_bool DeclareIntrinsic = false.
Proof. repeat split. Qed.

(** C10: the overload of [emitArtificialFunction] that takes an
    [IRGenFunction] does to the emitter, the builder and the SIL module
    exactly what the four-argument overload does when given
    [*IGF.IGM.SILMod] and [IGF.Builder], with or without the signature. *)
Theorem emitArtificialFunction_overloads
    (IGF : IRGenFunction) (Fn : LLVMFunction) (SILTy : SILType)
    (DI : IRGenDebugInfo) :
  let r := emitArtificialFunction overload4 IGF Fn SILTy DI in
  let r4 := overload4 (SILMod (IGM IGF)) (Builder IGF) Fn SILTy DI in
  r.1 = r4.1.1 ∧
  Builder r.2 = r4.2 ∧
  SILMod (IGM r.2) = r4.1.2 ∧
  emitArtificialFunction_noTy overload4 IGF Fn DI =
    emitArtificialFunction overload4 IGF Fn SILType_null DI.
Proof.
  cbv zeta. unfold emitArtificialFunction_noTy, emitArtificialFunction.
  destruct (overload4 (SILMod (IGM IGF)) (Builder IGF) Fn SILTy DI)
    as [[DI' M'] B'].
  repeat split.
Qed.
End EmitterProperties.

(** ** Argument numbering *)

Lemma scanArgs_found cur : ∀ no Arg cur' n,
  scanArgs cur no Arg = Some (cur', n) →
  ∃ k, n = (no + k)%nat ∧ cur' = drop k cur ∧ cur !! k = Some Arg.
Proof.
  induction cur as [|a rest IH]; intros no Arg cur' n; simpl; [discriminate|].
  destruct (decide (a = Arg)) as [->|Hne].
  - intros [= <- <-]. exists 0%nat. split; [lia|]. split; reflexivity.
  - intros H. destruct (IH _ _ _ _ H) as (k & -> & -> & Hk).
    exists (S k). split; [lia|]. split; [reflexivity | exact Hk].
Qed.

Lemma scanArgs_complete cur : ∀ no Arg k,
  cur !! k = Some Arg → is_Some (scanArgs cur no Arg).
Proof.
  induction cur as [|a rest IH]; intros no Arg k; simpl; [discriminate|].
  destruct (decide (a = Arg)); [eauto|].
  destruct k as [|k]; simpl; [congruence|]. apply IH.
Qed.

(** A scan that starts at position [k] of the argument list of [Fn] ends at
    the position it reports. *)
Lemma scanArgs_drop (args : list SILArgument) k Arg cur' n :
  scanArgs (drop k args) k Arg = Some (cur', n) →
  cur' = drop n args ∧ args !! n = Some Arg.
Proof.
  intros H. destruct (scanArgs_found _ _ _ _ _ H) as (j & -> & -> & Hj).
  rewrite drop_drop. rewrite lookup_drop in Hj. auto.
Qed.

(** The cursor is consistent in a fresh emitter, and the operations that do
    not number arguments keep it so. *)
Lemma cursor_ok_fresh : cursor_ok DI_fresh.
Proof. exact I. Qed.

Lemma cursor_ok_with_context loc sc stack DI :
  cursor_ok DI → cursor_ok (with_context loc sc stack DI).
Proof. intros H; exact H. Qed.

Lemma cursor_ok_pushLoc DI : cursor_ok DI → cursor_ok (pushLoc DI).
Proof. apply cursor_ok_with_context. Qed.

Lemma cursor_ok_popLoc DI DI' :
  cursor_ok DI → popLoc DI = Some DI' → cursor_ok DI'.
Proof.
  unfold popLoc. destruct (LocationStack DI) as [|[loc sc] rest];
    [discriminate|].
  intros H [= <-]. now apply cursor_ok_with_context.
Qed.

Lemma cursor_ok_clearLoc DI B : cursor_ok DI → cursor_ok (clearLoc DI B).1.
Proof. apply cursor_ok_with_context. Qed.

(** The cursor as [getArgNo] sees it after its function check. *)
Lemma getArgNo_cursor Fn DI :
  cursor_ok DI →
  let DI1 := if decide (LastFn DI = Some Fn) then DI
             else with_cursor (Some Fn) (fn_args Fn) 0%nat DI in
  LastArg DI1 = drop (LastArgNo DI1) (fn_args Fn).
Proof.
  intros Hok. simpl. destruct (decide (LastFn DI = Some Fn)) as [E|_].
  - unfold cursor_ok in Hok. now rewrite E in Hok.
  - reflexivity.
Qed.

Lemma getArgNo_found Fn Arg DI n DI' :
  cursor_ok DI →
  getArgNo Fn Arg DI = Some (n, DI') →
  fn_args Fn !! n = Some Arg ∧ cursor_ok DI' ∧ LastFn DI' = Some Fn.
Proof.
  intros Hok. pose proof (getArgNo_cursor Fn DI Hok) as Hcur. simpl in Hcur.
  unfold getArgNo.
  set (DI1 := if decide (LastFn DI = Some Fn) then DI
              else with_cursor (Some Fn) (fn_args Fn) 0%nat DI) in *.
  rewrite Hcur.
  destruct (scanArgs (drop (LastArgNo DI1) (fn_args Fn)) (LastArgNo DI1) Arg)
    as [[cur no]|] eqn:E1.
  - intros [= <- <-]. destruct (scanArgs_drop _ _ _ _ _ E1) as [-> Hn].
    split; [exact Hn|]. split; reflexivity.
  - destruct (scanArgs (fn_args Fn) 0%nat Arg) as [[cur no]|] eqn:E2;
      [|discriminate].
    intros [= <- <-].
    destruct (scanArgs_drop (fn_args Fn) 0 _ _ _ E2) as [-> Hn].
    split; [exact Hn|]. split; reflexivity.
Qed.

Lemma getArgNo_total Fn Arg DI i :
  fn_args Fn !! i = Some Arg → is_Some (getArgNo Fn Arg DI).
Proof.
  intros Hi. unfold getArgNo.
  destruct (scanArgs _ _ Arg) as [[cur no]|]; [eauto|].
  destruct (scanArgs_complete (fn_args Fn) 0 Arg i Hi) as [[cur no] ->]. eauto.
Qed.

Lemma getArgNo_correct Fn Arg DI i :
  cursor_ok DI → NoDup (fn_args Fn) →
  fn_args Fn !! i = Some Arg →
  ∃ DI', getArgNo Fn Arg DI = Some (i, DI') ∧ cursor_ok DI'.
Proof.
  intros Hok Hnd Hi.
  destruct (getArgNo_total Fn Arg DI i Hi) as [[n DI'] E].
  destruct (getArgNo_found _ _ _ _ _ Hok E) as (Hn & Hok' & _).
  rewrite (NoDup_lookup _ _ _ _ Hnd Hi Hn). eauto.
Qed.

Lemma getArgNos_correct Fn : ∀ (idxs : list nat) Args DI,
  cursor_ok DI → NoDup (fn_args Fn) →
  Forall2 (λ i Arg, fn_args Fn !! i = Some Arg) idxs Args →
  ∃ DI', getArgNos Fn Args DI = Some (idxs, DI') ∧ cursor_ok DI'.
Proof.
  intros idxs Args DI Hok Hnd HF. revert DI Hok.
  induction HF as [|i Arg idxs Args Hi _ IH]; intros DI Hok; simpl.
  - eauto.
  - destruct (getArgNo_correct Fn Arg DI i Hok Hnd Hi) as (DI1 & -> & Hok1).
    destruct (IH DI1 Hok1) as (DI2 & -> & Hok2). eauto.
Qed.

Lemma args_in_order (args : list SILArgument) :
  Forall2 (λ i Arg, args !! i = Some Arg) (seq 0 (length args)) args.
Proof.
  apply Forall2_same_length_lookup. split; [now rewrite length_seq|].
  intros i n Arg Hn HArg. apply lookup_seq in Hn as [-> _]. exact HArg.
Qed.

(** C5: with a consistent cursor and a function whose arguments are
    distinct, asking for the arguments in increasing order yields
    [0, 1, ..., N-1]; asking in any order yields each argument's own index;
    and after a query on another function the index returned is again the
    argument's own, never one left over from that function. *)
Theorem getArgNo_numbering Fn DI :
  cursor_ok DI → NoDup (fn_args Fn) →
  (∃ DI', getArgNos Fn (fn_args Fn) DI =
            Some (seq 0 (length (fn_args Fn)), DI')) ∧
  (∀ idxs Args,
     Forall2 (λ i Arg, fn_args Fn !! i = Some Arg) idxs Args →
     ∃ DI', getArgNos Fn Args DI = Some (idxs, DI')) ∧
  (∀ i Arg, fn_args Fn !! i = Some Arg →
     ∃ DI', getArgNo Fn Arg DI = Some (i, DI') ∧ cursor_ok DI') ∧
  (∀ Fn' Arg' j DI1 i Arg,
     Fn' ≠ Fn →
     getArgNo Fn' Arg' DI = Some (j, DI1) →
     fn_args Fn !! i = Some Arg →
     ∃ DI2, getArgNo Fn Arg DI1 = Some (i, DI2)).
Proof.
  intros Hok Hnd. split; [|split; [|split]].
  - destruct (getArgNos_correct Fn _ _ DI Hok Hnd (args_in_order _))
      as (DI' & E & _). eauto.
  - intros idxs Args HF.
    destruct (getArgNos_correct Fn _ _ DI Hok Hnd HF) as (DI' & E & _). eauto.
  - intros i Arg Hi. apply getArgNo_correct; assumption.
  - intros Fn' Arg' j DI1 i Arg _ E Hi.
    destruct (getArgNo_found _ _ _ _ _ Hok E) as (_ & Hok1 & _).
    destruct (getArgNo_correct Fn Arg DI1 i Hok1 Hnd Hi) as (DI2 & E2 & _).
    eauto.
Qed.

Lemma getArgNo_numbering_witness :
  (∃ DI', getArgNos Fn_three [11; 12; 13]%positive DI_fresh
            = Some ([0; 1; 2]%nat, DI')) ∧
  (∃ DI', getArgNos Fn_three [13; 11; 12]%positive DI_fresh
            = Some ([2; 0; 1]%nat, DI')) ∧
  (∃ DI2, getArgNo Fn_three 13%positive
            (with_cursor (Some Fn_two) [22%positive] 1 DI_fresh)
            = Some (2%nat, DI2)).
Proof.
  assert (Hnd : NoDup (fn_args Fn_three)).
  { apply (bool_decide_unpack _). vm_compute. reflexivity. }
  destruct (getArgNo_numbering Fn_three DI_fresh I Hnd)
    as (Horder & Hany & _ & Hswitch).
  split; [exact Horder|]. split.
  - apply Hany. repeat constructor.
  - apply (Hswitch Fn_two 22%positive 1%nat _ 2%nat 13%positive).
    + discriminate.
    + reflexivity.
    + reflexivity.
Defined.

Example getArgNo_repeated :
  fst <$> getArgNos Fn_three [13; 11; 12; 12; 11]%positive DI_fresh
    = Some [2; 0; 1; 1; 0]%nat.
Proof. reflexivity. Qed.

Example getArgNo_foreign_argument :
  getArgNo Fn_three 21%positive DI_fresh = None.
Proof. reflexivity. Qed.

(** ** The type cache *)

Lemma getOrCreateType_eq DbgTy Scope DI :
  getOrCreateType DbgTy Scope DI =
    let id := td_identity DbgTy in
    match lookupType id DI with
    | Some n => (n, DI)
    | None =>
        if isComposite (td_kind DbgTy) then
          let (fwd, DI1) := emitNode (nodeOf true DbgTy Scope []) DI in
          let DI2 := cacheType id fwd DI1 in
          let (elts, DI3) :=
            buildMembers getOrCreateType Scope (td_children DbgTy) 0 DI2 in
          let (n, DI4) := emitNode (nodeOf false DbgTy Scope elts) DI3 in
          let DI5 := with_types (replaceAllUsesWith fwd n (DBuilder DI4))
                                (DITypeCache DI4) DI4 in
          (n, cacheType id n DI5)
        else
          let (n, DI1) := emitNode (nodeOf false DbgTy Scope []) DI in
          (n, cacheType id n DI1)
    end.
Proof. destruct DbgTy; reflexivity. Qed.

(** Caching a node that the sink holds and does not redirect elsewhere makes
    the next lookup of that identity a hit on that node. *)
Lemma lookupType_cacheType id n nd DI :
  di_nodes (DBuilder DI) !! n = Some nd →
  default n (di_replacedBy nd) = n →
  lookupType id (cacheType id n DI) = Some n.
Proof.
  intros Hn Hr. unfold lookupType, cacheType. simpl.
  rewrite lookup_insert_eq. unfold resolve. rewrite Hn, Hr, Hn. reflexivity.
Qed.

Lemma emitNode_lookup nd DI :
  di_nodes (DBuilder (emitNode nd DI).2) !! (emitNode nd DI).1 = Some nd.
Proof. simpl. apply list_lookup_middle. reflexivity. Qed.

(** What [getOrCreateType] returns is what the cache yields afterwards. *)
Lemma getOrCreateType_cached DbgTy Scope DI :
  lookupType (td_identity DbgTy) (getOrCreateType DbgTy Scope DI).2 =
    Some (getOrCreateType DbgTy Scope DI).1.
Proof.
  rewrite getOrCreateType_eq. cbv zeta.
  destruct (lookupType (td_identity DbgTy) DI) as [n|] eqn:Hhit; [exact Hhit|].
  destruct (isComposite (td_kind DbgTy)).
  - destruct (emitNode (nodeOf true DbgTy Scope []) DI) as [fwd DI1].
    destruct (buildMembers getOrCreateType Scope (td_children DbgTy) 0
                (cacheType (td_identity DbgTy) fwd DI1)) as [elts DI3].
    pose proof (emitNode_lookup (nodeOf false DbgTy Scope elts) DI3) as Hn.
    destruct (emitNode (nodeOf false DbgTy Scope elts) DI3) as [n DI4].
    cbn [fst snd] in *.
    destruct (decide (fwd = n)) as [->|Hne].
    + apply lookupType_cacheType
        with (nd := setReplacedBy n (nodeOf false DbgTy Scope elts)).
      * simpl. rewrite list_lookup_alter_eq.
        exact (f_equal (fmap (setReplacedBy n)) Hn).
      * reflexivity.
    + apply lookupType_cacheType with (nd := nodeOf false DbgTy Scope elts).
      * simpl. rewrite list_lookup_alter_ne by exact Hne. exact Hn.
      * reflexivity.
  - pose proof (emitNode_lookup (nodeOf false DbgTy Scope []) DI) as Hn.
    destruct (emitNode (nodeOf false DbgTy Scope []) DI) as [n DI1].
    cbn [fst snd] in *.
    apply lookupType_cacheType with (nd := nodeOf false DbgTy Scope []);
      [exact Hn | reflexivity].
Qed.

Lemma getOrCreateType_hit DbgTy Scope DI n :
  lookupType (td_identity DbgTy) DI = Some n →
  getOrCreateType DbgTy Scope DI = (n, DI).
Proof. intros H. rewrite getOrCreateType_eq. cbv zeta. now rewrite H. Qed.

(** C3: asking [getOrCreateType] a second time for a descriptor of the
    same identity, whatever its kind and whatever the scope passed, returns
    the node the first call returned and creates nothing. *)
Theorem getOrCreateType_idempotent Ty1 Ty2 Scope1 Scope2 DI :
  td_identity Ty1 = td_identity Ty2 →
  getOrCreateType Ty2 Scope2 (getOrCreateType Ty1 Scope1 DI).2 =
    ((getOrCreateType Ty1 Scope1 DI).1, (getOrCreateType Ty1 Scope1 DI).2).
Proof.
  intros Hid. apply getOrCreateType_hit. rewrite <- Hid.
  apply getOrCreateType_cached.
Qed.

Lemma getOrCreateType_idempotent_witness :
  (getOrCreateType Ty_Three (Some 9%nat)
     (getOrCreateType Ty_Three None DI_fresh).2).1 = 4%nat ∧
  (getOrCreateType Ty_Three None DI_fresh).1 = 4%nat.
Proof.
  split.
  - rewrite (getOrCreateType_idempotent Ty_Three Ty_Three None (Some 9%nat)
               DI_fresh eq_refl).
    reflexivity.
  - reflexivity.
Defined.

(** The layout of [Ty_Three]: offsets 0, 4 and 8. *)
Example Ty_Three_layout :
  let r := getOrCreateType Ty_Three None DI_fresh in
  di_elements <$> di_nodes (DBuilder r.2) !! r.1
    = Some [(1%nat, 0); (2%nat, 4); (3%nat, 8)].
Proof. reflexivity. Qed.

(** The self-referential member of [Ty_Node] is the forward declaration,
    which the sink redirects to the completed node. *)
Example Ty_Node_cycle :
  let r := getOrCreateType Ty_Node None DI_fresh in
  r.1 = 2%nat ∧
  di_elements <$> di_nodes (DBuilder r.2) !! r.1
    = Some [(1%nat, 0); (0%nat, 64)] ∧
  resolve (DBuilder r.2) 0%nat = r.1.
Proof. repeat split. Qed.

(** ** Further properties of the location tracker *)

Lemma with_context_self DI :
  with_context (LastLoc DI) (LastScope DI) (LocationStack DI) DI = DI.
Proof. destruct DI; reflexivity. Qed.

Lemma with_context_twice loc sc stack loc' sc' stack' DI :
  with_context loc sc stack (with_context loc' sc' stack' DI) =
    with_context loc sc stack DI.
Proof. reflexivity. Qed.

(** A guard operation changes nothing of the emitter but its context and
    its stack: putting the old ones back gives the old emitter. *)
Lemma step_frame op DI B DI' B' :
  step op (ptrDI DI, B) = Some (ptrDI DI', B') →
  with_context (LastLoc DI) (LastScope DI) (LocationStack DI) DI' = DI.
Proof.
  destruct op; simpl.
  - intros [= <- _]. unfold pushLoc. rewrite with_context_twice.
    apply with_context_self.
  - unfold popLoc. destruct (LocationStack DI) as [|[loc sc] rest] eqn:E;
      [discriminate|].
    simpl. intros [= <- _]. rewrite with_context_twice, <- E.
    apply with_context_self.
Qed.

Lemma run_frame_eq ops : ∀ DI B DI' B',
  run ops (ptrDI DI, B) = Some (ptrDI DI', B') →
  with_context (LastLoc DI) (LastScope DI) (LocationStack DI) DI' = DI.
Proof.
  induction ops as [|op ops IH]; intros DI B DI' B'; simpl.
  - intros [= <- _]. apply with_context_self.
  - destruct (step op (ptrDI DI, B)) as [s1|] eqn:E; [|discriminate].
    destruct (step_ptr _ _ _ _ E) as (DI1 & B1 & ->). simpl. intros Hr.
    pose proof (step_frame _ _ _ _ _ E) as H1.
    pose proof (IH _ _ _ _ Hr) as H2.
    rewrite <- H2 in H1. rewrite with_context_twice in H1. exact H1.
Qed.

Lemma getScope_get line col sc :
  DebugLoc.getScope (DebugLoc.get line col sc) = sc.
Proof. destruct sc; reflexivity. Qed.

Lemma builder_after_push ops B :
  builder_after ops
    (SetCurrentDebugLocation
       (DebugLoc.get 0 0 (DebugLoc.getScope (getCurrentDebugLocation B))) B) =
  SetCurrentDebugLocation
    (DebugLoc.get 0 0 (DebugLoc.getScope (getCurrentDebugLocation B))) B.
Proof.
  unfold builder_after. destruct (decide (pushes ops = 0%nat)); [reflexivity|].
  unfold getCurrentDebugLocation at 1. cbn [CurDbgLocation SetCurrentDebugLocation].
  rewrite getScope_get. reflexivity.
Qed.

Lemma run_builder ops : ∀ DI B s',
  run ops (ptrDI DI, B) = Some s' → s'.2 = builder_after ops B.
Proof.
  induction ops as [|[|] ops IH]; intros DI B s'; simpl.
  - intros [= <-]. reflexivity.
  - intros Hr. rewrite (IH _ _ _ Hr), builder_after_push.
    unfold builder_after. simpl. reflexivity.
  - destruct (popLoc DI) as [DI1|]; [|discriminate]. simpl.
    intros Hr. rewrite (IH _ _ _ Hr). reflexivity.
Qed.

(** X1: a balanced sequence of guard constructions and destructions gives
    back the emitter exactly as it was, every member of it; the builder is
    left as [builder_after] says, not as it was. *)
Theorem balanced_restores_emitter ops DI B :
  balanced ops = true →
  run ops (ptrDI DI, B) = Some (ptrDI DI, builder_after ops B).
Proof.
  intros Hb.
  destruct (run_balanced ops DI B Hb) as (DI' & B' & Hr & Hc & Hs).
  pose proof (run_frame_eq _ _ _ _ _ Hr) as Hf.
  pose proof (run_builder _ _ _ _ Hr) as HB. simpl in HB.
  injection Hc as Hloc Hsc.
  rewrite <- Hloc, <- Hsc, <- Hs, with_context_self in Hf.
  rewrite Hr, Hf, HB. reflexivity.
Qed.

Lemma balanced_restores_emitter_witness :
  run ops_nested_100 (ptrDI DI_line12, Builder_line12) =
    Some (ptrDI DI_line12,
          {| CurDbgLocation := DebugLoc.mk 0 0 (Some 3%nat); InsertPt := 40 |}).
Proof.
  rewrite (balanced_restores_emitter ops_nested_100 DI_line12 Builder_line12).
  - reflexivity.
  - vm_compute. reflexivity.
Defined.

Lemma unmatched_empty_pop ops : ∀ DI B,
  matched (length (LocationStack DI)) ops = false →
  ∃ pre post DI1 B1,
    ops = pre ++ PopLocation :: post ∧
    matched (length (LocationStack DI)) pre = true ∧
    run pre (ptrDI DI, B) = Some (ptrDI DI1, B1) ∧
    LocationStack DI1 = [].
Proof.
  induction ops as [|[|] ops IH]; intros DI B Hm; simpl in Hm.
  - discriminate.
  - destruct (IH (pushLoc DI)
                (SetCurrentDebugLocation
                   (DebugLoc.get 0 0
                      (DebugLoc.getScope (getCurrentDebugLocation B))) B))
      as (pre & post & DI1 & B1 & -> & Hpre & Hr & He).
    { rewrite pushLoc_stack. exact Hm. }
    rewrite pushLoc_stack in Hpre.
    exists (PushArtificial :: pre), post, DI1, B1. repeat split; assumption.
  - destruct (LocationStack DI) as [|[loc sc] rest] eqn:E.
    + exists [], ops, DI, B. repeat split. exact E.
    + simpl in Hm.
      destruct (IH (with_context loc sc rest DI) B Hm)
        as (pre & post & DI1 & B1 & -> & Hpre & Hr & He).
      exists (PopLocation :: pre), post, DI1, B1.
      split; [reflexivity|]. split; [exact Hpre|]. split; [|exact He].
      simpl. rewrite (popLoc_Some _ _ _ _ E). exact Hr.
Qed.

(** X2: a sequence of guard operations never pops an empty stack exactly
    when each of its pops finds a saved context, those on the stack at the
    start included.  Such a sequence runs to completion, with the same result
    whatever [pop_back_val] does on an empty vector; any other sequence gets,
    by a prefix whose pops are all matched, to a pop with the stack empty. *)
Theorem matched_iff_no_empty_pop ops DI B :
  (matched (length (LocationStack DI)) ops = true →
   is_Some (run ops (ptrDI DI, B)) ∧
   ∀ on_empty, run_with on_empty ops (ptrDI DI, B) = run ops (ptrDI DI, B)) ∧
  (matched (length (LocationStack DI)) ops = false →
   ∃ pre post DI1 B1,
     ops = pre ++ PopLocation :: post ∧
     matched (length (LocationStack DI)) pre = true ∧
     run pre (ptrDI DI, B) = Some (ptrDI DI1, B1) ∧
     LocationStack DI1 = []).
Proof.
  split.
  - intros Hm. split.
    + apply (run_matched ops _ DI B Hm). lia.
    + intros on_empty. apply (run_with_matched on_empty ops _ DI B Hm). lia.
  - apply unmatched_empty_pop.
Qed.

Lemma matched_iff_no_empty_pop_witness :
  is_Some (run [PushArtificial; PopLocation] (ptrDI DI_line12, Builder_line12)) ∧
  ∃ pre post DI1 B1,
    [PushArtificial; PopLocation; PopLocation; PushArtificial]
      = pre ++ PopLocation :: post ∧
    run pre (ptrDI DI_line12, Builder_line12) = Some (ptrDI DI1, B1) ∧
    LocationStack DI1 = [].
Proof.
  split.
  - destruct (matched_iff_no_empty_pop [PushArtificial; PopLocation]
                DI_line12 Builder_line12) as [Hyes _].
    apply Hyes. reflexivity.
  - destruct (matched_iff_no_empty_pop
                [PushArtificial; PopLocation; PopLocation; PushArtificial]
                DI_line12 Builder_line12) as [_ Hno].
    destruct (Hno eq_refl) as (pre & post & DI1 & B1 & E & _ & Hr & He).
    exists pre, post, DI1, B1. repeat split; assumption.
Defined.

(** X3: after a sequence that runs to completion the stack holds one entry
    more for every construction and one less for every destruction. *)
Theorem run_stack_length ops : ∀ DI B DI' B',
  run ops (ptrDI DI, B) = Some (ptrDI DI', B') →
  (length (LocationStack DI') + pops ops =
   length (LocationStack DI) + pushes ops)%nat.
Proof.
  induction ops as [|[|] ops IH]; intros DI B DI' B'; simpl.
  - intros [= <- _]. lia.
  - intros Hr. specialize (IH _ _ _ _ Hr). rewrite pushLoc_stack in IH.
    simpl in IH. lia.
  - unfold popLoc. destruct (LocationStack DI) as [|[loc sc] rest] eqn:E;
      [discriminate|].
    simpl. intros Hr. specialize (IH _ _ _ _ Hr). simpl in IH. lia.
Qed.

Lemma run_stack_length_witness :
  ∃ DI' B',
    run [PushArtificial; PushArtificial; PopLocation; PushArtificial]
        (ptrDI DI_line12, Builder_line12) = Some (ptrDI DI', B') ∧
    length (LocationStack DI') = 2%nat.
Proof.
  eexists _, _. split; [reflexivity|].
  pose proof (run_stack_length
                [PushArtificial; PushArtificial; PopLocation; PushArtificial]
                DI_line12 Builder_line12 _ _ eq_refl) as H.
  simpl in H. simpl. lia.
Defined.

(** X4: whatever the code under a guard does to the emitter's current
    context, as long as it leaves the stack as the guard's constructor left
    it, the guard's destructor puts back the context and the stack from
    before the guard; everything else the body did to the emitter and the
    builder stays. *)
Theorem guarded_restores_context body DI B DI2 B2 :
  body (pushLoc DI) (ArtificialLocation_ctor (ptrDI DI) B).2 = Some (DI2, B2) →
  LocationStack DI2 = LocationStack (pushLoc DI) →
  guarded body DI B =
    Some (with_context (LastLoc DI) (LastScope DI) (LocationStack DI) DI2, B2).
Proof.
  intros Hbody Hstack. rewrite pushLoc_stack in Hstack.
  unfold guarded. simpl in *. rewrite Hbody. simpl.
  rewrite (popLoc_Some _ _ _ _ Hstack). reflexivity.
Qed.

Lemma guarded_restores_context_witness :
  ∃ DI' B',
    guarded (λ DI B, Some (clearLoc DI B)) DI_line12 Builder_line12
      = Some (DI', B') ∧
    context DI' = context DI_line12 ∧
    LocationStack DI' = LocationStack DI_line12 ∧
    getCurrentDebugLocation B' = DebugLoc.empty.
Proof.
  eexists _, _. split.
  - apply (guarded_restores_context (λ DI B, Some (clearLoc DI B))
             DI_line12 Builder_line12); reflexivity.
  - repeat split.
Defined.

(** X5: guard operations never move the builder's insertion point nor
    change the scope of its debug location, and the destructor never puts
    the builder's line and column back: once a guard has been constructed
    the builder stays at line 0 / column 0 of its scope. *)
Theorem run_builder_location ops DI B DI' B' :
  run ops (ptrDI DI, B) = Some (ptrDI DI', B') →
  B' = builder_after ops B ∧
  InsertPt B' = InsertPt B ∧
  DebugLoc.getScope (getCurrentDebugLocation B') =
    DebugLoc.getScope (getCurrentDebugLocation B) ∧
  (pushes ops ≠ 0%nat →
   DebugLoc.Line (getCurrentDebugLocation B') = 0 ∧
   DebugLoc.Col (getCurrentDebugLocation B') = 0).
Proof.
  intros Hr. pose proof (run_builder _ _ _ _ Hr) as HB. simpl in HB. subst B'.
  unfold builder_after.
  destruct (decide (pushes ops = 0%nat)) as [E|E].
  - repeat split; intros; contradiction.
  - split; [reflexivity|]. split; [reflexivity|]. split.
    + unfold getCurrentDebugLocation at 1.
      cbn [CurDbgLocation SetCurrentDebugLocation]. apply getScope_get.
    + intros _. unfold getCurrentDebugLocation, DebugLoc.get, DebugLoc.getScope.
      simpl. destruct (DebugLoc.Scope (CurDbgLocation B)); split; reflexivity.
Qed.

Lemma run_builder_location_witness :
  ∃ DI' B',
    run [PushArtificial; PopLocation] (ptrDI DI_line12, Builder_line12)
      = Some (ptrDI DI', B') ∧
    DebugLoc.Line (getCurrentDebugLocation B') = 0 ∧
    DebugLoc.getScope (getCurrentDebugLocation B') = Some 3%nat.
Proof.
  eexists _, _. split; [reflexivity|].
  destruct (run_builder_location [PushArtificial; PopLocation]
              DI_line12 Builder_line12 _ _ eq_refl) as (_ & _ & Hs & Hl).
  split.
  - apply Hl. discriminate.
  - exact Hs.
Defined.

(** X6: no sequence of guard operations touches the metadata builder, any
    of the five caches, the argument cursor or the main file name: what
    [getBuilder] and [getMainFilename] return is the same before and after. *)
Theorem run_frame ops DI B DI' B' :
  run ops (ptrDI DI, B) = Some (ptrDI DI', B') →
  getBuilder DI' = getBuilder DI ∧
  getMainFilename DI' = getMainFilename DI ∧
  ScopeCache DI' = ScopeCache DI ∧
  DIFileCache DI' = DIFileCache DI ∧
  DITypeCache DI' = DITypeCache DI ∧
  DINameSpaceCache DI' = DINameSpaceCache DI ∧
  Functions DI' = Functions DI ∧
  LastFn DI' = LastFn DI ∧
  LastArg DI' = LastArg DI ∧
  LastArgNo DI' = LastArgNo DI.
Proof.
  intros Hr. pose proof (run_frame_eq _ _ _ _ _ Hr) as Hf.
  unfold getBuilder, getMainFilename. rewrite <- Hf. repeat split.
Qed.

Lemma run_frame_witness :
  ∃ DI' B',
    run [PushArtificial; PushArtificial; PopLocation]
        (ptrDI DI_line12, Builder_line12) = Some (ptrDI DI', B') ∧
    getMainFilename DI' = "main.swift"%string ∧
    getBuilder DI' = {| di_nodes := [] |}.
Proof.
  eexists _, _. split; [reflexivity|].
  destruct (run_frame [PushArtificial; PushArtificial; PopLocation]
              DI_line12 Builder_line12 _ _ eq_refl) as (HB & HF & _).
  split; [exact HF | exact HB].
Defined.

(** X7: [popLoc] takes nothing from the current context: two emitters that
    differ in their current context only pop to the same emitter.  So a
    [clearLoc] just before a pop makes no difference to the emitter. *)
Theorem popLoc_ignores_context DI loc sc B :
  popLoc (with_context loc sc (LocationStack DI) DI) = popLoc DI ∧
  popLoc (clearLoc DI B).1 = popLoc DI.
Proof.
  unfold clearLoc, popLoc. simpl.
  destruct (LocationStack DI) as [|[loc' sc'] rest]; split; reflexivity.
Qed.

(** X8: pushing right after a successful pop gives the emitter that
    [clearLoc] gives before the pop: the context just restored goes back on
    the stack and the current context is empty.  So the pair gives back the
    emitter it started from exactly when that emitter's current context was
    already the empty one. *)
Theorem pushLoc_after_popLoc DI DI' B :
  popLoc DI = Some DI' →
  pushLoc DI' = (clearLoc DI B).1 ∧
  (pushLoc DI' = DI ↔ context DI = (FullLocation_zero, None)).
Proof.
  unfold popLoc.
  destruct (LocationStack DI) as [|[loc sc] rest] eqn:E; [discriminate|].
  intros [= <-].
  assert (Hc : pushLoc (with_context loc sc rest DI) = (clearLoc DI B).1).
  { unfold pushLoc, clearLoc. cbn [fst]. rewrite E. reflexivity. }
  split; [exact Hc|]. rewrite Hc. unfold clearLoc, context. cbn [fst]. split.
  - intros H. rewrite <- H. reflexivity.
  - intros [= Hl Hs]. rewrite <- Hl, <- Hs. apply with_context_self.
Qed.

Lemma pushLoc_after_popLoc_witness :
  ∃ DI', popLoc DI_line12_saved = Some DI' ∧
         pushLoc DI' = (clearLoc DI_line12_saved Builder_line12).1 ∧
         pushLoc DI' ≠ DI_line12_saved.
Proof.
  eexists. split; [reflexivity|].
  destruct (pushLoc_after_popLoc DI_line12_saved _ Builder_line12 eq_refl)
    as [Hc Hiff].
  split; [exact Hc|].
  intros H. apply Hiff in H. discriminate H.
Defined.

(** X9: the guard's constructor leaves the builder at the unknown debug
    location exactly when the builder's debug location had no scope; this is
    the case right after [clearLoc]. *)
Theorem ctor_unknown_location DI B :
  (getCurrentDebugLocation (ArtificialLocation_ctor (ptrDI DI) B).2
     = DebugLoc.empty ↔
   DebugLoc.getScope (getCurrentDebugLocation B) = None) ∧
  getCurrentDebugLocation
    (ArtificialLocation_ctor (ptrDI (clearLoc DI B).1) (clearLoc DI B).2).2
    = DebugLoc.empty.
Proof.
  split; [|reflexivity].
  destruct B as [[line col [sc|]] ip]; cbn; split; intros H;
    try discriminate H; reflexivity.
Qed.

Lemma contexts_pushLoc DI :
  contexts (pushLoc DI) = (FullLocation_zero, None) :: contexts DI.
Proof. reflexivity. Qed.

Lemma popLoc_contexts DI x y l :
  contexts DI = x :: y :: l →
  ∃ DI', popLoc DI = Some DI' ∧ contexts DI' = y :: l.
Proof.
  unfold contexts. intros [= _ E]. destruct y as [loc sc].
  rewrite (popLoc_Some _ _ _ _ E). eexists. split; reflexivity.
Qed.

Lemma run_open ops : ∀ d base DI B,
  matched d ops = true →
  contexts DI = replicate d (FullLocation_zero, None) ++ base →
  base ≠ [] →
  ∃ DI' B', run ops (ptrDI DI, B) = Some (ptrDI DI', B') ∧
            contexts DI' =
              replicate (open_after d ops) (FullLocation_zero, None) ++ base.
Proof.
  induction ops as [|[|] ops IH]; intros d base DI B Hm Hc Hb; simpl in Hm.
  - exists DI, B. split; [reflexivity | exact Hc].
  - simpl. apply (IH (S d)); [exact Hm | | exact Hb].
    rewrite contexts_pushLoc, Hc. reflexivity.
  - destruct d as [|d]; [discriminate|]. simpl in Hc.
    destruct (replicate d (FullLocation_zero, None) ++ base)
      as [|y l] eqn:E.
    { apply app_eq_nil in E as [_ ->]. contradiction. }
    destruct (popLoc_contexts _ _ _ _ Hc) as (DI1 & Hp & Hc1).
    simpl. rewrite Hp. simpl. apply (IH d); [exact Hm | | exact Hb].
    rewrite Hc1, E. reflexivity.
Qed.

Lemma open_after_count ops : ∀ d,
  matched d ops = true →
  (open_after d ops + pops ops = d + pushes ops)%nat.
Proof.
  induction ops as [|[|] ops IH]; intros d Hm; simpl in *.
  - lia.
  - rewrite (IH _ Hm). lia.
  - destruct d as [|d]; [discriminate|]. simpl. rewrite <- (IH _ Hm). lia.
Qed.

(** X10: after a sequence in which every pop has its own earlier push, the
    contexts the emitter holds are those it held before, below one empty
    context for every guard still open; so while a guard is open the
    emitter's own context is the empty one. *)
Theorem run_open_guards ops DI B :
  matched 0 ops = true →
  ∃ DI' B',
    run ops (ptrDI DI, B) = Some (ptrDI DI', B') ∧
    contexts DI' =
      replicate (open_after 0 ops) (FullLocation_zero, None) ++ contexts DI ∧
    (open_after 0 ops + pops ops = pushes ops)%nat ∧
    (open_after 0 ops ≠ 0%nat → context DI' = (FullLocation_zero, None)).
Proof.
  intros Hm.
  destruct (run_open ops 0 (contexts DI) DI B Hm eq_refl)
    as (DI' & B' & Hr & Hc); [discriminate|].
  exists DI', B'. split; [exact Hr|]. split; [exact Hc|]. split.
  - apply (open_after_count ops 0 Hm).
  - intros Hne. destruct (open_after 0 ops) as [|e]; [contradiction|].
    unfold contexts in Hc. cbn [replicate app] in Hc.
    injection Hc as Hloc Hsc _. unfold context. now rewrite Hloc, Hsc.
Qed.

Lemma run_open_guards_witness :
  ∃ DI' B',
    run [PushArtificial; PushArtificial; PopLocation; PushArtificial]
        (ptrDI DI_line12, Builder_line12) = Some (ptrDI DI', B') ∧
    contexts DI' =
      [(FullLocation_zero, None); (FullLocation_zero, None);
       context DI_line12].
Proof.
  destruct (run_open_guards
              [PushArtificial; PushArtificial; PopLocation; PushArtificial]
              DI_line12 Builder_line12 eq_refl) as (DI' & B' & Hr & Hc & _).
  exists DI', B'. split; [exact Hr | exact Hc].
Defined.
